(** * donder-release: the npm installer shims and the release engine

    Two parts.

    - [Shim]: the two Node scripts of the npm wrapper, [npm/pre-install.js]
      and [npm/uninstall.js], embedded as programs in a small
      writer-and-exception monad, followed by the event loop that later
      delivers the results of the child processes to their callbacks.
    - [Engine]: the release engine the documentation describes (commit
      parser and version bump resolver).  Its code is not part of the
      sources at hand; every definition of that part says so. *)

From Stdlib Require Import ZArith Bool Ascii.
From stdpp Require Import gmap strings list.

(** ** Strings *)

(** The double quote character, for the shell fragments that contain it. *)
Definition dquote : string :=
  String (Ascii.ascii_of_nat 34) EmptyString.

(** [starts_with p s]: [s] begins with [p]. *)
Fixpoint starts_with (p s : string) : bool :=
  match p, s with
  | EmptyString, _ => true
  | String a p', String b s' =>
      if Ascii.eqb a b then starts_with p' s' else false
  | String _ _, EmptyString => false
  end.

(** ** The npm shims *)

Module Shim.

(** *** Values the scripts handle *)

(** A value read from [process.env]: a string, or [undefined] ([None]). *)
Definition env_value := option string.

(** JavaScript's [a || b] on such values: the empty string and [undefined]
    are the falsy ones. *)
Definition js_or (a b : env_value) : env_value :=
  match a with
  | Some (String _ _) => a
  | _ => b
  end.

(** Truthiness of a string. *)
Definition truthy (s : string) : bool :=
  match s with
  | EmptyString => false
  | String _ _ => true
  end.

(** The error object [child_process.exec] hands to its callback when the
    child fails. *)
Record exec_error := ExecError { err_code : Z; err_cmd : string }.

(** What [exec] reports about a finished child. *)
Record child_result := ChildResult {
  res_error : option exec_error;
  res_stdout : string;
  res_stderr : string
}.

(** An argument of [console.log]. *)
Inductive printed :=
| PStr (s : string)
| PErr (e : exec_error).

(** A callback of [exec]: what it prints once the child has finished. *)
Definition callback := child_result -> list printed.

(** The effects of the synchronous run of a script, in program order. *)
Inductive effect :=
| Log (p : printed)
| Exec (cmd : string) (cb : callback).

(** The exception [path.join] raises on an argument that is not a string. *)
Inductive exn :=
| TypeError (msg : string).

(** *** The script monad: a trace of effects and a value or an exception *)

Definition script (A : Type) : Type := list effect * (exn + A).

Definition script_ret {A} (a : A) : script A := ([], inr a).

Definition script_bind {A B} (k : A -> script B) (m : script A) : script B :=
  match m with
  | (t, inl e) => (t, inl e)
  | (t, inr a) => let '(t', r) := k a in (t ++ t', r)
  end.

#[export] Instance script_mret : MRet script := @script_ret.
#[export] Instance script_mbind : MBind script := @script_bind.

Definition throw {A} (e : exn) : script A := ([], inl e).
Definition console_log (p : printed) : script unit := ([Log p], inr tt).
Definition exec (cmd : string) (cb : callback) : script unit :=
  ([Exec cmd cb], inr tt).

Definition trace {A} (m : script A) : list effect := fst m.
Definition outcome {A} (m : script A) : exn + A := snd m.

(** The commands a trace hands to [exec], and the lines it prints. *)
Fixpoint commands (t : list effect) : list string :=
  match t with
  | [] => []
  | Log _ :: t' => commands t'
  | Exec cmd _ :: t' => cmd :: commands t'
  end.

Fixpoint children (t : list effect) : list (string * callback) :=
  match t with
  | [] => []
  | Log _ :: t' => children t'
  | Exec cmd cb :: t' => (cmd, cb) :: children t'
  end.

Fixpoint logged (t : list effect) : list printed :=
  match t with
  | [] => []
  | Log p :: t' => p :: logged t'
  | Exec _ _ :: t' => logged t'
  end.

(** *** The world a script runs in *)

Record world := World {
  (** [process.env] *)
  env : gmap string string;
  (** the paths for which [fs.existsSync] answers [true] *)
  files : gset string;
  (** the [version] field of the [package.json] next to the [npm]
      directory; npm requires it to be a string *)
  package_version : string
}.

Section Scripts.

(** [path.join] of Node on string arguments; the scripts only hand it to
    [fs.existsSync]. *)
Variable path_join : list string -> string.

(** [path.join(homeDir, ...)]: a [TypeError] when [homeDir] is [undefined]. *)
Definition path_join_home (home : env_value) (rest : list string)
  : script string :=
  match home with
  | Some h => mret (path_join (h :: rest))
  | None =>
      throw (TypeError "The path argument must be of type string. Received undefined")
  end.

(** [fs.existsSync(p)] *)
Definition existsSync (w : world) (p : string) : bool :=
  bool_decide (p ∈ files w).

(** [process.env.HOME || process.env.USERPROFILE || process.env.HOMEPATH] *)
Definition home_dir (e : gmap string string) : env_value :=
  js_or (js_or (e !! "HOME") (e !! "USERPROFILE")) (e !! "HOMEPATH").

(** **** [npm/pre-install.js] *)

(** The [setCargo] constant. *)
Definition setCargo : string :=
  "PATH=" +:+ dquote +:+ "/$HOME/.cargo/bin:$PATH" +:+ dquote.

(** The command of the first [exec]: the rustup bootstrap. *)
Definition rustup_command : string :=
  "curl --proto '=https' --tlsv1.2 -sSf https://sh.rustup.rs | sh -s -- -y && "
  +:+ setCargo.

(** The callback of the first [exec]; it looks at [error] only. *)
Definition bootstrap_done : callback := fun r =>
  match res_error r with
  | Some e =>
      [PStr "curl failed! Curl may not be installed on the OS. View https://curl.se/download.html to install.";
       PErr e]
  | None => []
  end.

(** The [version] constant:
    [process.env.npm_config_version ? process.env.npm_config_version
     : require("../package.json").version]. *)
Definition version (w : world) : string :=
  match env w !! "npm_config_version" with
  | Some v => if truthy v then v else package_version w
  | None => package_version w
  end.

(** The command of the second [exec]. *)
Definition install_command (v : string) : string :=
  "cargo install donder-release --vers " +:+ v.

(** The line printed just before it. *)
Definition install_banner (v : string) : string :=
  "Installing and compiling donder-release " +:+ v +:+ "...".

(** The callback of the second [exec]: [stdout], then [error || stderr] when
    one of them is truthy, else the closing line. *)
Definition install_done : callback := fun r =>
  PStr (res_stdout r) ::
  match res_error r with
  | Some e => [PErr e]
  | None =>
      if truthy (res_stderr r) then [PStr (res_stderr r)]
      else [PStr "install finished!"]
  end.

Definition pre_install (w : world) : script unit :=
  cargoDir ← path_join_home (home_dir (env w)) [".cargo"];
  (if negb (existsSync w cargoDir) then
     console_log (PStr "Installing deps [cargo].");;
     exec rustup_command bootstrap_done
   else mret tt);;
  console_log (PStr (install_banner (version w)));;
  exec (install_command (version w)) install_done.

(** **** [npm/uninstall.js] *)

Definition uninstall_command : string := "cargo uninstall donder-release".

Definition uninstall_done : callback := fun r =>
  PStr (res_stdout r) ::
  match res_error r with
  | Some e => [PErr e]
  | None => if truthy (res_stderr r) then [PStr (res_stderr r)] else []
  end.

Definition uninstall (w : world) : script unit :=
  binp ← path_join_home (home_dir (env w)) [".cargo"; "bin"; "donder-release"];
  if existsSync w binp then
    console_log (PStr "Uninstalling donder-release...");;
    exec uninstall_command uninstall_done
  else
    console_log (PStr "donder-release not found skipping!").

End Scripts.

(** *** After the synchronous run: the event loop

    [exec] only starts a child and returns; the callback runs when the
    child has exited, after the script's own statements have all run.  An
    uncaught exception ends the process: no callback is delivered. *)

Record state := State {
  (** every command handed to [exec] so far *)
  launched : list string;
  (** the children still running, with their callbacks *)
  pending : list (string * callback);
  (** the children that have exited, with what they reported *)
  finished : list (string * child_result);
  (** everything printed so far *)
  console : list printed
}.

Definition after_sync {A} (m : script A) : state :=
  {| launched := commands (trace m);
     pending := match outcome m with
                | inr _ => children (trace m)
                | inl _ => []
                end;
     finished := [];
     console := logged (trace m) |}.

(** One turn of the loop: some running child exits with some result and its
    callback prints. *)
Inductive step : state -> state -> Prop :=
| step_child_exit l pre cmd cb post f out r :
    step (State l (pre ++ (cmd, cb) :: post) f out)
         (State l (pre ++ post) (f ++ [(cmd, r)]) (out ++ cb r)).

(** *** How a command obtains the tool *)

Inductive install_method :=
| PrebuiltBinary
| BuildFromSource.

(** What the cargo subcommands do, from cargo's manual, not from this
    repository: [cargo install] "builds and installs a Rust binary" from the
    crate's source; [cargo binstall] is the subcommand that downloads a
    released executable.  Other commands are not classified. *)
Definition method_of (cmd : string) : option install_method :=
  if starts_with "cargo install " cmd then Some BuildFromSource
  else if starts_with "cargo binstall " cmd then Some PrebuiltBinary
  else None.

(** The install step of a run: the last command it hands to [exec]. *)
Definition install_step (t : list effect) : option string :=
  last (commands t).

(** The run installs a ready-made executable. *)
Definition installs_prebuilt (t : list effect) : Prop :=
  ∃ c, install_step t = Some c ∧ method_of c = Some PrebuiltBinary.

(** *** A concrete world, for evaluation *)

(** Segments joined by a slash: what [path.join] of POSIX Node returns on
    segments that are already normalised. *)
Definition slash_join (l : list string) : string := String.concat "/" l.

Definition linux_world : world :=
  {| env := {[ "HOME" := "/home/dev" ]};
     files := ∅;
     package_version := "1.0.0" |}.

(** The same home with [npm_config_version] set by npm. *)
Definition linux_world_pinned : world :=
  {| env := {[ "HOME" := "/home/dev"; "npm_config_version" := "2.1.0" ]};
     files := ∅;
     package_version := "1.0.0" |}.

Definition linux_world_installed : world :=
  {| env := {[ "HOME" := "/home/dev" ]};
     files := {[ "/home/dev/.cargo"; "/home/dev/.cargo/bin/donder-release" ]};
     package_version := "1.0.0" |}.

(** A state in which no child is running: the loop has nothing left to
    deliver. *)
Definition quiescent (s : state) : Prop := pending s = [].

(** A child that exits without error and without output. *)
Definition quiet_exit : child_result := ChildResult None "" "".

(** The state of a fresh home after both children have exited quietly,
    the bootstrap first. *)
Definition fresh_home_done : state :=
  State [rustup_command; install_command (version linux_world)] []
        [(rustup_command, quiet_exit);
         (install_command (version linux_world), quiet_exit)]
        ([PStr "Installing deps [cargo].";
          PStr (install_banner (version linux_world))]
         ++ bootstrap_done quiet_exit ++ install_done quiet_exit).

(** A variable that [||] skips: unset, or set to the empty string. *)
Definition falsy (v : env_value) : Prop := v = None ∨ v = Some "".

(** A Windows-like environment: no [HOME], the home under [USERPROFILE]. *)
Definition windows_world : world :=
  {| env := {[ "USERPROFILE" := "C:/Users/dev"; "HOMEPATH" := "/Users/dev" ]};
     files := {[ "C:/Users/dev/.cargo" ]};
     package_version := "1.0.0" |}.

(** No variable names a home. *)
Definition bare_world : world :=
  {| env := {[ "PATH" := "/usr/bin" ]};
     files := ∅;
     package_version := "1.0.0" |}.

(** [HOME] is set but empty and [HOMEPATH] is empty too. *)
Definition empty_home_world : world :=
  {| env := {[ "HOME" := ""; "HOMEPATH" := "" ]};
     files := ∅;
     package_version := "1.0.0" |}.

End Shim.


(** ** The release engine *)

Module Engine.

(** *** Characters and lines *)

Definition newline : ascii := Ascii.ascii_of_nat 10.

Definition is_newline (c : ascii) : bool := Ascii.eqb c newline.

(** Lower-casing of the ASCII letters; other bytes are kept. *)
Definition to_lower (c : ascii) : ascii :=
  let n := Ascii.nat_of_ascii c in
  if (65 <=? n)%nat && (n <=? 90)%nat
  then Ascii.ascii_of_nat (n + 32)
  else c.

Fixpoint lower (s : string) : string :=
  match s with
  | EmptyString => EmptyString
  | String c s' => String (to_lower c) (lower s')
  end.

Fixpoint string_forall (p : ascii -> bool) (s : string) : bool :=
  match s with
  | EmptyString => true
  | String c s' => p c && string_forall p s'
  end.

(** The ASCII letters. *)
Definition is_letter (c : ascii) : bool :=
  let n := Ascii.nat_of_ascii c in
  ((65 <=? n)%nat && (n <=? 90)%nat) || ((97 <=? n)%nat && (n <=? 122)%nat).

(** The longest prefix whose characters satisfy [p], and what follows. *)
Fixpoint span (p : ascii -> bool) (s : string) : string * string :=
  match s with
  | EmptyString => (EmptyString, EmptyString)
  | String c s' =>
      if p c then let '(a, b) := span p s' in (String c a, b)
      else (EmptyString, s)
  end.

(** [b] is empty or starts with a character that fails [p]. *)
Definition stops (p : ascii -> bool) (b : string) : bool :=
  match b with
  | EmptyString => true
  | String c _ => negb (p c)
  end.

(** The lines of a text, split at line feeds; never empty. *)
Fixpoint lines (s : string) : list string :=
  match s with
  | EmptyString => [EmptyString]
  | String c s' =>
      if is_newline c then EmptyString :: lines s'
      else match lines s' with
           | l :: ls => String c l :: ls
           | [] => [String c EmptyString]
           end
  end.

Definition unlines (ls : list string) : string :=
  String.concat (String newline EmptyString) ls.

Definition is_blank (c : ascii) : bool :=
  Ascii.eqb c " " || Ascii.eqb c (Ascii.ascii_of_nat 9).

(** A line with nothing on it but spaces, tabs and carriage returns. *)
Definition is_blank_line (l : string) : bool :=
  string_forall (fun c => is_blank c || Ascii.eqb c (Ascii.ascii_of_nat 13)) l.

Fixpoint drop_while (p : ascii -> bool) (s : string) : string :=
  match s with
  | EmptyString => EmptyString
  | String c s' => if p c then drop_while p s' else s
  end.

Fixpoint drop_while_end (p : ascii -> bool) (s : string) : string :=
  match s with
  | EmptyString => EmptyString
  | String c s' =>
      match drop_while_end p s' with
      | EmptyString => if p c then EmptyString else String c EmptyString
      | r => String c r
      end
  end.

Definition is_empty (s : string) : bool :=
  match s with
  | EmptyString => true
  | String _ _ => false
  end.

(** *** Data model *)

(** Modelled from the spec: the [RawCommit] of section 3.  The engine that
    declares it (reader, parser, resolver, renderer, publisher) is not among
    the source files; the timestamp is a number of seconds. *)
Record RawCommit := {
  hash : string;
  message : string;
  authoredAt : Z
}.

(** Modelled from the spec: section 3, the [type] enumeration of
    [ParsedCommit]: the members the spec names, the members its ellipsis
    leaves open ([Other], with the type word in lower case), and the
    [unknown] fallback. *)
Inductive CommitType :=
| Feat | Fix | Perf | Refactor | Docs | Chore
| Other (name : string)
| Unknown.

#[export] Instance CommitType_eq_dec : EqDecision CommitType.
Proof. solve_decision. Defined.

(** Modelled from the spec: section 3, [ParsedCommit]. *)
Record ParsedCommit := {
  type : CommitType;
  scope : option string;
  description : string;
  body : option string;
  footers : list (string * string);
  breaking : bool;
  raw : RawCommit
}.

(** Modelled from the spec: section 3, [VersionBump]. *)
Inductive VersionBump :=
| BumpNone | BumpPatch | BumpMinor | BumpMajor.

(** Modelled from the spec: the semver triple of sections 3 and 4.3. *)
Record Semver := { major : nat; minor : nat; patch : nat }.

(** *** 4.2 Conventional commit parser *)

(** Modelled from the spec: the names of the commit types, as a header
    spells them. *)
Definition type_name (t : CommitType) : string :=
  match t with
  | Feat => "feat"
  | Fix => "fix"
  | Perf => "perf"
  | Refactor => "refactor"
  | Docs => "docs"
  | Chore => "chore"
  | Other name => name
  | Unknown => "unknown"
  end.

(** The type a word in lower case names. *)
Definition named_type (w : string) : CommitType :=
  if String.eqb w "feat" then Feat
  else if String.eqb w "fix" then Fix
  else if String.eqb w "perf" then Perf
  else if String.eqb w "refactor" then Refactor
  else if String.eqb w "docs" then Docs
  else if String.eqb w "chore" then Chore
  else Other w.

(** Modelled from the spec: section 4.2, "case-insensitive type matching".
    A type word is a word of letters; the spec's enumeration is open, so a
    word that is none of the six named types is a type of its own. *)
Definition type_of_word (w : string) : option CommitType :=
  if is_empty w then None
  else if string_forall is_letter w then Some (named_type (lower w))
  else None.

(** The pieces of a header [type(scope)!: description], as written. *)
Record HeaderTokens := {
  tok_type : string;
  tok_scope : option string;
  tok_bang : bool;
  tok_description : string
}.

Definition is_type_char (c : ascii) : bool :=
  negb (Ascii.eqb c "(" || Ascii.eqb c "!"
        || Ascii.eqb c ":").

Definition is_scope_char (c : ascii) : bool := negb (Ascii.eqb c ")").

Definition take_scope (s : string) : option (option string * string) :=
  match s with
  | String "(" s' =>
      let '(sc, r) := span is_scope_char s' in
      match r with
      | String ")" r' => Some (Some sc, r')
      | _ => None
      end
  | _ => Some (None, s)
  end.

Definition take_bang (s : string) : bool * string :=
  match s with
  | String "!" s' => (true, s')
  | _ => (false, s)
  end.

Definition take_colon (s : string) : option string :=
  match s with
  | String ":" (String " " d) => Some d
  | _ => None
  end.

(** Modelled from the spec: section 4.2, the header grammar
    [type(scope)!: description]; the scope and the [!] are optional, the
    description is not empty. *)
Definition tokenize (h : string) : option HeaderTokens :=
  let '(w, r) := span is_type_char h in
  match take_scope r with
  | None => None
  | Some (sc, r1) =>
      let '(b, r2) := take_bang r1 in
      match take_colon r2 with
      | None => None
      | Some d =>
          if is_empty d then None
          else Some {| tok_type := w; tok_scope := sc;
                       tok_bang := b; tok_description := d |}
      end
  end.

(** The header as its tokens spell it. *)
Definition untokenize (t : HeaderTokens) : string :=
  tok_type t
  +:+ match tok_scope t with
      | Some sc => "(" +:+ sc +:+ ")"
      | None => ""
      end
  +:+ (if tok_bang t then "!" else "")
  +:+ ": " +:+ tok_description t.

(** Modelled from the spec: section 4.2, "scope trimmed of surrounding
    whitespace and parentheses". *)
Definition is_scope_margin (c : ascii) : bool :=
  is_blank c || Ascii.eqb c "(" || Ascii.eqb c ")".

Definition trim_scope (s : string) : string :=
  drop_while_end is_scope_margin (drop_while is_scope_margin s).

(** Modelled from the spec: section 4.2, the footer lines [key: value] and
    [key #value]; a key is a word of letters, digits and hyphens, or the
    two words [BREAKING CHANGE]. *)
Definition is_key_char (c : ascii) : bool :=
  let n := Ascii.nat_of_ascii c in
  ((65 <=? n)%nat && (n <=? 90)%nat) || ((97 <=? n)%nat && (n <=? 122)%nat)
  || ((48 <=? n)%nat && (n <=? 57)%nat) || Ascii.eqb c "-".

Definition take_separator (s : string) : option string :=
  match s with
  | String ":" (String " " v) => Some v
  | String " " (String "#" v) => Some v
  | _ => None
  end.

Definition breaking_key : string := "BREAKING CHANGE".

Definition footer_of_line (l : string) : option (string * string) :=
  if starts_with "BREAKING CHANGE: " l
  then Some (breaking_key, String.substring 17 (String.length l - 17) l)
  else
    let '(k, r) := span is_key_char l in
    if is_empty k then None
    else match take_separator r with
         | Some v => Some (k, v)
         | None => None
         end.

Fixpoint drop_blank_lines (ls : list string) : list string :=
  match ls with
  | [] => []
  | l :: ls' => if is_blank_line l then drop_blank_lines ls' else ls
  end.

(** The trailing footer lines of the text after the header, scanned from
    the last line upwards; blank lines below and between the footers (a
    final line feed leaves one) are passed over.  The first component is
    what remains above the footers. *)
Fixpoint trailing_footers (rev_lines : list string) (acc : list (string * string))
  : list string * list (string * string) :=
  match rev_lines with
  | [] => ([], acc)
  | l :: ls =>
      match footer_of_line l with
      | Some f => trailing_footers ls (f :: acc)
      | None =>
          if is_blank_line l then trailing_footers ls acc
          else (rev_lines, acc)
      end
  end.

(** Modelled from the spec: section 4.2, "optional blank line, optional
    body paragraphs, optional trailing footer lines". *)
Definition body_and_footers (rest : list string)
  : option string * list (string * string) :=
  let '(above, fs) := trailing_footers (rev rest) [] in
  let body_lines := drop_blank_lines (rev above) in
  (match body_lines with
   | [] => None
   | _ => Some (unlines body_lines)
   end, fs).

Definition has_breaking_footer (fs : list (string * string)) : bool :=
  existsb (fun f => String.eqb (fst f) breaking_key) fs.

(** Modelled from the spec: section 4.2, the tie-break, "breaking=false"
    only when the [!], the [BREAKING CHANGE] footer and any "recognizable
    marker" in the body are all absent.  The marker is a line after the
    header that begins with [BREAKING CHANGE:], wherever it stands. *)
Definition has_breaking_marker (rest : list string) : bool :=
  existsb (starts_with "BREAKING CHANGE:") rest.

(** The header line of a message: its first line. *)
Definition header_line (msg : string) : string :=
  match lines msg with
  | h :: _ => h
  | [] => EmptyString
  end.

Definition after_header (msg : string) : list string :=
  match lines msg with
  | _ :: rest => rest
  | [] => []
  end.

(** Modelled from the spec: section 4.2, what makes a message breaking
    apart from the [!] of its header: a [BREAKING CHANGE] footer, or the
    marker anywhere below the header. *)
Definition breaking_below (msg : string) : bool :=
  has_breaking_footer (snd (body_and_footers (after_header msg)))
  || has_breaking_marker (after_header msg).

(** Modelled from the spec: section 4.2, a message conforms when its header
    follows the grammar, with a word of letters for its type. *)
Definition parse_header (h : string) : option (CommitType * HeaderTokens) :=
  match tokenize h with
  | None => None
  | Some t =>
      match type_of_word (tok_type t) with
      | None => None
      | Some ty => Some (ty, t)
      end
  end.

Definition conforms (msg : string) : bool :=
  match parse_header (header_line msg) with
  | Some _ => true
  | None => false
  end.

(** Modelled from the spec: the conventional commit parser of section 4.2,
    whose source is missing.  A conforming message gives its type, trimmed
    scope, description, body and footers, and is breaking when the header
    has [!] or a [BREAKING CHANGE] footer or marker line is present; any
    other message
    degrades to [unknown] with the whole message as description. *)
Definition parse (rc : RawCommit) : ParsedCommit :=
  match parse_header (header_line (message rc)) with
  | Some (ty, t) =>
      let '(bd, fs) := body_and_footers (after_header (message rc)) in
      {| type := ty;
         scope := trim_scope <$> tok_scope t;
         description := tok_description t;
         body := bd;
         footers := fs;
         breaking := tok_bang t || breaking_below (message rc);
         raw := rc |}
  | None =>
      {| type := Unknown;
         scope := None;
         description := message rc;
         body := None;
         footers := [];
         breaking := false;
         raw := rc |}
  end.

(** Modelled from the spec: the header renderer that section 8 asks the
    parser to round-trip with, missing from the sources; it writes the type,
    the scope, the breaking marker and the description. *)
Definition render_header (c : ParsedCommit) : string :=
  untokenize {| tok_type := type_name (type c);
                tok_scope := scope c;
                tok_bang := breaking c;
                tok_description := description c |}.

(** *** The header grammar, said declaratively *)

(** Modelled from the spec: the header grammar of section 4.2 as a
    condition on the pieces of a header: the type is a word of letters, in
    any case; the scope (if any) runs to the first closing parenthesis; the
    description is not empty. *)
Definition well_formed (t : HeaderTokens) : Prop :=
  is_Some (type_of_word (tok_type t)) ∧
  (∀ sc, tok_scope t = Some sc -> string_forall is_scope_char sc = true) ∧
  tok_description t ≠ "".

(** A message matches the grammar when its header line is spelled by
    well-formed pieces; body and footers are optional and free. *)
Definition matches_grammar (msg : string) : Prop :=
  ∃ t, well_formed t ∧ untokenize t = header_line msg.

(** The conditions under which a header is written the way the renderer
    writes it: the type in lower case, the scope without margins to trim,
    and no [BREAKING CHANGE] footer or marker line unless the header has
    its [!]. *)
Definition canonical (msg : string) : bool :=
  match tokenize (header_line msg) with
  | None => false
  | Some t =>
      String.eqb (lower (tok_type t)) (tok_type t)
      && match tok_scope t with
         | Some sc => String.eqb (trim_scope sc) sc
         | None => true
         end
      && (tok_bang t || negb (breaking_below msg))
  end.

(** *** 4.3 Version bump resolver *)

Definition is_feat (c : ParsedCommit) : bool := bool_decide (type c = Feat).

Definition is_fix_or_perf (c : ParsedCommit) : bool :=
  bool_decide (type c = Fix) || bool_decide (type c = Perf).

(** Modelled from the spec: the algorithm of the version bump resolver of
    section 4.3, whose source is missing: "scan all commits; if any
    breaking=true, major; else if any type=feat, minor; else if any type in
    {fix, perf}, patch; else none". *)
Definition resolve_bump (cs : list ParsedCommit) : VersionBump :=
  if existsb breaking cs then BumpMajor
  else if existsb is_feat cs then BumpMinor
  else if existsb is_fix_or_perf cs then BumpPatch
  else BumpNone.

(** Modelled from the spec: the next version under the semantic-versioning
    rules of section 4.3, the same table below 1.0.0. *)
Definition bump_version (v : Semver) (b : VersionBump) : Semver :=
  match b with
  | BumpMajor => {| major := S (major v); minor := 0; patch := 0 |}
  | BumpMinor => {| major := major v; minor := S (minor v); patch := 0 |}
  | BumpPatch => {| major := major v; minor := minor v; patch := S (patch v) |}
  | BumpNone => v
  end.

(** What the resolver returns. *)
Record Resolution := { bump : VersionBump; nextVersion : Semver }.

(** Modelled from the spec: the version bump resolver of section 4.3, whose
    source is missing: the bump and the resulting next version. *)
Definition resolve (current : Semver) (cs : list ParsedCommit) : Resolution :=
  let b := resolve_bump cs in
  {| bump := b; nextVersion := bump_version current b |}.

(** Modelled from the spec: section 4.3, the [NoReleaseNeeded] signal. *)
Definition no_release_needed (r : Resolution) : bool :=
  match bump r with
  | BumpNone => true
  | _ => false
  end.

(** *** Concrete inputs, for evaluation *)

Definition commit (h msg : string) (t : Z) : RawCommit :=
  {| hash := h; message := msg; authoredAt := t |}.

(** A scoped fix, breaking by its [!] and by its footer. *)
Definition scoped_fix : RawCommit :=
  commit "b2"
    ("fix(core)!: correct y"
     +:+ String newline (String newline "BREAKING CHANGE: drops z"))
    2.

(** A feature that is breaking by its footer alone. *)
Definition footer_breaking_feat : RawCommit :=
  commit "e5"
    ("feat: add x"
     +:+ String newline (String newline "BREAKING CHANGE: drops z"))
    5.

(** The same message ending in a line feed. *)
Definition footer_breaking_feat_lf : RawCommit :=
  commit "e5" (message footer_breaking_feat +:+ String newline EmptyString) 5.

(** The same feature with the [!] in its header as well. *)
Definition marked_breaking_feat : RawCommit :=
  commit "e5"
    ("feat!: add x"
     +:+ String newline (String newline "BREAKING CHANGE: drops z"))
    5.

Definition sample_commits : list ParsedCommit :=
  [parse (commit "a1" "feat: add x" 1);
   parse (commit "b2" "fix(core): correct y" 2);
   parse (commit "c3" "merge branch" 3);
   parse (commit "d4" "perf!: drop z" 4)].

End Engine.

Module ShimSpec.
Import Shim.

(** *** The scripts on concrete worlds *)

Example pre_install_fresh_home :
  commands (trace (pre_install slash_join linux_world))
  = [rustup_command; "cargo install donder-release --vers 1.0.0"].
Proof. reflexivity. Qed.

Example pre_install_with_toolchain :
  trace (pre_install slash_join linux_world_installed)
  = [Log (PStr "Installing and compiling donder-release 1.0.0...");
     Exec "cargo install donder-release --vers 1.0.0" install_done].
Proof. reflexivity. Qed.

Example pre_install_pinned :
  install_step (trace (pre_install slash_join linux_world_pinned))
  = Some "cargo install donder-release --vers 2.1.0".
Proof. reflexivity. Qed.

Example uninstall_when_installed :
  trace (uninstall slash_join linux_world_installed)
  = [Log (PStr "Uninstalling donder-release...");
     Exec "cargo uninstall donder-release" uninstall_done].
Proof. reflexivity. Qed.

Example uninstall_when_absent :
  trace (uninstall slash_join linux_world)
  = [Log (PStr "donder-release not found skipping!")].
Proof. reflexivity. Qed.

Example install_done_quiet :
  install_done {| res_error := None; res_stdout := "ok"; res_stderr := "" |}
  = [PStr "ok"; PStr "install finished!"].
Proof. reflexivity. Qed.

Example install_done_failed :
  install_done {| res_error := Some (ExecError 101 "cargo");
                  res_stdout := ""; res_stderr := "error: no cargo" |}
  = [PStr ""; PErr (ExecError 101 "cargo")].
Proof. reflexivity. Qed.

(** *** The scripts in general *)

Section Runs.
Variable path_join : list string -> string.

Lemma pre_install_unfold (w : world) (h : string) :
  home_dir (env w) = Some h ->
  pre_install path_join w =
    ((if existsSync w (path_join [h; ".cargo"]) then []
      else [Log (PStr "Installing deps [cargo]."); Exec rustup_command bootstrap_done])
     ++ [Log (PStr (install_banner (version w)));
         Exec (install_command (version w)) install_done],
     inr tt).
Proof.
  intros Hh. unfold pre_install. rewrite Hh. cbn.
  destruct (existsSync w (path_join [h; ".cargo"])); reflexivity.
Qed.

Lemma uninstall_unfold (w : world) (h : string) :
  home_dir (env w) = Some h ->
  uninstall path_join w =
    (if existsSync w (path_join [h; ".cargo"; "bin"; "donder-release"]) then
       [Log (PStr "Uninstalling donder-release...");
        Exec uninstall_command uninstall_done]
     else [Log (PStr "donder-release not found skipping!")],
     inr tt).
Proof.
  intros Hh. unfold uninstall. rewrite Hh. cbn.
  destruct (existsSync w _); reflexivity.
Qed.

(** Without a home directory both scripts stop at [path.join], before any
    effect. *)
Lemma home_undefined_throws (w : world) :
  home_dir (env w) = None ->
  (∃ e, pre_install path_join w = ([], inl e)) ∧
  (∃ e, uninstall path_join w = ([], inl e)).
Proof.
  intros Hh. unfold pre_install, uninstall. rewrite Hh. split; by eexists.
Qed.

Lemma no_pending_no_step (s s' : state) : pending s = [] -> ¬ step s s'.
Proof.
  intros Hp Hs. destruct Hs as [l pre cmd cb post f out r].
  simpl in Hp. by destruct pre.
Qed.

Lemma no_pending_stays (s s' : state) : pending s = [] -> rtc step s s' -> s' = s.
Proof.
  intros Hp Hr. destruct Hr as [|s1 s2 s3 H12 _]; [done|].
  by destruct (no_pending_no_step _ _ Hp H12).
Qed.

Lemma step_launched (s s' : state) : step s s' -> launched s' = launched s.
Proof. by destruct 1. Qed.

Lemma steps_launched (s s' : state) : rtc step s s' -> launched s' = launched s.
Proof.
  induction 1 as [|s1 s2 s3 H12 _ IH]; [done|].
  rewrite IH. by apply step_launched.
Qed.

(** C8.  The uninstall script hands [cargo uninstall donder-release] to
    [exec] exactly when the file [.cargo/bin/donder-release] under the home
    directory exists; when the file is absent no command is executed, the
    only effect of the script is the skip message, and nothing else is ever
    printed afterwards. *)
Theorem uninstall_guard (w : world) (h : string) :
  home_dir (env w) = Some h ->
  let binp := path_join [h; ".cargo"; "bin"; "donder-release"] in
  let run := uninstall path_join w in
  (uninstall_command ∈ commands (trace run) <-> binp ∈ files w) ∧
  (binp ∈ files w -> commands (trace run) = [uninstall_command]) ∧
  (binp ∉ files w ->
     commands (trace run) = [] ∧
     trace run = [Log (PStr "donder-release not found skipping!")] ∧
     ∀ s, rtc step (after_sync run) s ->
          console s = [PStr "donder-release not found skipping!"]).
Proof.
  intros Hh binp run. subst run. rewrite (uninstall_unfold w h Hh).
  fold binp. unfold existsSync, trace. cbn [fst].
  case_bool_decide as Hin.
  - split; [|split]; [| done | done].
    split; [done|]. intros _. cbn. apply list_elem_of_here.
  - split; [|split]; [| done |].
    + split; [|done]. cbn. by intros ?%elem_of_nil.
    + intros _. split; [done|]. split; [done|].
      intros s Hs. apply no_pending_stays in Hs; [|done]. by subst s.
Qed.

(** C9.  The install command is [cargo install donder-release --vers v],
    where [v] is [npm_config_version] when that variable is set and not
    empty, and the [version] field of [package.json] otherwise; the only
    other command the script can issue is the rustup bootstrap. *)
Theorem install_version (w : world) (h : string) :
  home_dir (env w) = Some h ->
  ∃ v : string,
    install_step (trace (pre_install path_join w))
      = Some ("cargo install donder-release --vers " +:+ v) ∧
    (∀ c, c ∈ commands (trace (pre_install path_join w)) ->
          c = rustup_command ∨ c = "cargo install donder-release --vers " +:+ v) ∧
    (∀ s, env w !! "npm_config_version" = Some s -> s ≠ "" -> v = s) ∧
    (env w !! "npm_config_version" = None ∨
     env w !! "npm_config_version" = Some "" -> v = package_version w).
Proof.
  intros Hh. exists (version w). rewrite (pre_install_unfold w h Hh).
  unfold trace, install_step. cbn [fst].
  split; [|split; [|split]].
  - destruct (existsSync w _); reflexivity.
  - intros c. destruct (existsSync w _); cbn;
      rewrite !elem_of_cons, elem_of_nil; tauto.
  - intros s Hs Hne. unfold version. rewrite Hs. by destruct s.
  - intros [Hn|Hn]; unfold version; by rewrite Hn.
Qed.

(** C10, as the code has it.  On every run that finds a home directory
    the install command is issued, whether or not the toolchain directory
    exists.  When the directory is absent the bootstrap and the install are
    both started by the synchronous run, so the install is in flight before
    the bootstrap can have reported anything; and in every later state of
    the event loop, whatever the bootstrap reported, the install has been
    launched. *)
Theorem install_unconditional (w : world) (h : string) :
  home_dir (env w) = Some h ->
  let run := pre_install path_join w in
  let install := install_command (version w) in
  install ∈ commands (trace run) ∧
  (path_join [h; ".cargo"] ∈ files w -> commands (trace run) = [install]) ∧
  (path_join [h; ".cargo"] ∉ files w ->
     commands (trace run) = [rustup_command; install] ∧
     pending (after_sync run)
       = [(rustup_command, bootstrap_done); (install, install_done)] ∧
     finished (after_sync run) = []) ∧
  (∀ s, rtc step (after_sync run) s -> install ∈ launched s) ∧
  (∀ s r, rtc step (after_sync run) s ->
          (rustup_command, r) ∈ finished s -> is_Some (res_error r) ->
          install ∈ launched s).
Proof.
  intros Hh run install. subst run install.
  rewrite (pre_install_unfold w h Hh). unfold existsSync, after_sync, trace, outcome.
  cbn [fst snd].
  assert (Hin : ∀ b : bool,
    install_command (version w) ∈
      commands ((if b then []
                 else [Log (PStr "Installing deps [cargo].");
                       Exec rustup_command bootstrap_done])
                ++ [Log (PStr (install_banner (version w)));
                    Exec (install_command (version w)) install_done])).
  { intros []; cbn; rewrite !elem_of_cons; tauto. }
  split; [apply Hin|].
  split; [intros Hd; by rewrite bool_decide_eq_true_2|].
  split; [intros Hd; by rewrite bool_decide_eq_false_2|].
  split.
  - intros s Hs. rewrite (steps_launched _ _ Hs). apply Hin.
  - intros s r Hs _ _. rewrite (steps_launched _ _ Hs). apply Hin.
Qed.

(** C1, as the code has it.  The install step of the script is
    [cargo install donder-release --vers v], a build from source, and the
    script announces it with the line
    [Installing and compiling donder-release v...]. *)
Theorem install_compiles_from_source (w : world) (h : string) :
  home_dir (env w) = Some h ->
  ∃ (pre : list effect) (v : string),
    trace (pre_install path_join w)
      = pre ++ [Log (PStr ("Installing and compiling donder-release " +:+ v +:+ "..."));
                Exec ("cargo install donder-release --vers " +:+ v) install_done] ∧
    install_step (trace (pre_install path_join w))
      = Some ("cargo install donder-release --vers " +:+ v) ∧
    method_of ("cargo install donder-release --vers " +:+ v) = Some BuildFromSource ∧
    ¬ installs_prebuilt (trace (pre_install path_join w)).
Proof.
  intros Hh. rewrite (pre_install_unfold w h Hh). unfold trace. cbn [fst].
  eexists _, (version w). split; [reflexivity|].
  assert (Hstep : install_step
            ((if existsSync w (path_join [h; ".cargo"]) then []
              else [Log (PStr "Installing deps [cargo]."); Exec rustup_command bootstrap_done])
             ++ [Log (PStr (install_banner (version w)));
                 Exec (install_command (version w)) install_done])
            = Some (install_command (version w))).
  { unfold install_step. destruct (existsSync w _); reflexivity. }
  assert (Hm : method_of (install_command (version w)) = Some BuildFromSource).
  { reflexivity. }
  split; [exact Hstep|]. split; [exact Hm|].
  intros (c & Hc & Hp). rewrite Hstep in Hc. injection Hc as <-.
  rewrite Hm in Hp. discriminate.
Qed.

End Runs.

(** C8 at a home without the binary. *)
Lemma uninstall_guard_witness :
  home_dir (env linux_world) = Some "/home/dev" ∧
  (uninstall_command ∈ commands (trace (uninstall slash_join linux_world))
   <-> "/home/dev/.cargo/bin/donder-release" ∈ files linux_world).
Proof.
  split; [reflexivity|].
  exact (proj1 (uninstall_guard slash_join linux_world "/home/dev" eq_refl)).
Defined.

(** C9 at a run with [npm_config_version] set to 2.1.0. *)
Lemma install_version_witness :
  home_dir (env linux_world_pinned) = Some "/home/dev" ∧
  ∃ v : string,
    install_step (trace (pre_install slash_join linux_world_pinned))
      = Some ("cargo install donder-release --vers " +:+ v) ∧
    v = "2.1.0".
Proof.
  split; [reflexivity|].
  destruct (install_version slash_join linux_world_pinned "/home/dev" eq_refl)
    as (v & Hstep & _ & Hset & _).
  exists v. split; [exact Hstep|].
  apply Hset; [reflexivity | discriminate].
Defined.

(** C10 at a home without the toolchain directory. *)
Lemma install_unconditional_witness :
  home_dir (env linux_world) = Some "/home/dev" ∧
  install_command (version linux_world)
    ∈ commands (trace (pre_install slash_join linux_world)).
Proof.
  split; [reflexivity|].
  exact (proj1 (install_unconditional slash_join linux_world "/home/dev" eq_refl)).
Defined.

(** C1 (amended) at the same home. *)
Lemma install_compiles_from_source_witness :
  home_dir (env linux_world) = Some "/home/dev" ∧
  ¬ installs_prebuilt (trace (pre_install slash_join linux_world)).
Proof.
  split; [reflexivity|].
  destruct (install_compiles_from_source slash_join linux_world "/home/dev" eq_refl)
    as (pre & v & _ & _ & _ & Hno).
  exact Hno.
Defined.

(** C10 as stated fails.  With no [HOME], [USERPROFILE] or [HOMEPATH] in the
    environment, [path.join] raises its [TypeError] on line 9: the run ends
    there, nothing is handed to [exec], and the install command is not
    issued, neither then nor later. *)
Lemma install_not_issued_without_home :
  env bare_world !! "HOME" = None ∧
  env bare_world !! "USERPROFILE" = None ∧
  env bare_world !! "HOMEPATH" = None ∧
  (∃ e, outcome (pre_install slash_join bare_world) = inl e) ∧
  commands (trace (pre_install slash_join bare_world)) = [] ∧
  (install_command (version bare_world)
     ∉ commands (trace (pre_install slash_join bare_world))) ∧
  pending (after_sync (pre_install slash_join bare_world)) = [].
Proof.
  split; [reflexivity|]. split; [reflexivity|]. split; [reflexivity|].
  split; [by eexists|]. split; [reflexivity|]. split; [|reflexivity].
  assert (Hc : commands (trace (pre_install slash_join bare_world)) = [])
    by reflexivity.
  rewrite Hc. apply not_elem_of_nil.
Qed.

(** C1 as stated fails.  On a home without the toolchain directory and with
    version 1.0.0 in [package.json], the install step of the script is
    [cargo install donder-release --vers 1.0.0], announced as
    [Installing and compiling donder-release 1.0.0...]: a build from source,
    not the download of an executable. *)
Lemma install_step_not_prebuilt :
  install_step (trace (pre_install slash_join linux_world))
    = Some "cargo install donder-release --vers 1.0.0" ∧
  logged (trace (pre_install slash_join linux_world))
    = [PStr "Installing deps [cargo].";
       PStr "Installing and compiling donder-release 1.0.0..."] ∧
  method_of "cargo install donder-release --vers 1.0.0" = Some BuildFromSource ∧
  ¬ installs_prebuilt (trace (pre_install slash_join linux_world)).
Proof.
  split; [reflexivity|]. split; [reflexivity|]. split; [reflexivity|].
  intros (c & Hc & Hm).
  assert (Hs : install_step (trace (pre_install slash_join linux_world))
               = Some "cargo install donder-release --vers 1.0.0") by reflexivity.
  rewrite Hs in Hc. injection Hc as <-. discriminate Hm.
Qed.

End ShimSpec.

Module EngineSpec.
Import Engine.

(** *** The engine on concrete commits *)

Example parse_scoped_fix :
  parse scoped_fix
  = {| type := Fix; scope := Some "core"; description := "correct y";
       body := None; footers := [("BREAKING CHANGE", "drops z")];
       breaking := true; raw := scoped_fix |}.
Proof. reflexivity. Qed.

Example parse_padded_scope :
  scope (parse (commit "a1" "Feat( api ): add x" 1)) = Some "api" ∧
  type (parse (commit "a1" "Feat( api ): add x" 1)) = Feat.
Proof. split; reflexivity. Qed.

Example parse_final_line_feed :
  footers (parse footer_breaking_feat_lf) = [("BREAKING CHANGE", "drops z")] ∧
  breaking (parse footer_breaking_feat_lf) = true ∧
  canonical (message footer_breaking_feat_lf) = false.
Proof. repeat split; reflexivity. Qed.

Example parse_open_type :
  type (parse (commit "g7" "test: add tests" 7)) = Other "test" ∧
  render_header (parse (commit "g7" "test: add tests" 7)) = "test: add tests".
Proof. split; reflexivity. Qed.

Example resolve_breaking_fix :
  resolve {| major := 1; minor := 2; patch := 3 |}
          [parse (commit "f6" "fix!: break z" 6)]
  = {| bump := BumpMajor;
       nextVersion := {| major := 2; minor := 0; patch := 0 |} |}.
Proof. reflexivity. Qed.

Example resolve_no_commits :
  no_release_needed (resolve {| major := 1; minor := 2; patch := 3 |} []) = true.
Proof. reflexivity. Qed.

(** *** Strings *)

Lemma append_nil (b : string) : "" +:+ b = b.
Proof. reflexivity. Qed.

Lemma append_cons (c : ascii) (a b : string) :
  String c a +:+ b = String c (a +:+ b).
Proof. reflexivity. Qed.

Lemma append_assoc (a b c : string) : (a +:+ b) +:+ c = a +:+ (b +:+ c).
Proof.
  induction a as [|x a IH]; [reflexivity|].
  rewrite !append_cons. by f_equal.
Qed.

Lemma span_append (p : ascii -> bool) (s a b : string) :
  span p s = (a, b) -> a +:+ b = s.
Proof.
  revert a b. induction s as [|c s IH]; intros a b; simpl.
  - by intros [= <- <-].
  - destruct (p c).
    + destruct (span p s) as [a' b'] eqn:Hs. intros [= <- <-].
      rewrite append_cons. f_equal. by apply IH.
    + by intros [= <- <-].
Qed.

(** *** The header tokens spell the header *)

Lemma take_scope_spells (r r1 : string) (sc : option string) :
  take_scope r = Some (sc, r1) ->
  match sc with
  | Some x => "(" +:+ x +:+ ")"
  | None => ""
  end +:+ r1 = r.
Proof.
  unfold take_scope. destruct r as [|c r]; [by intros [= <- <-]|].
  destruct (decide (c = "("%char)) as [->|Hc].
  - destruct (span _ r) as [x y] eqn:Hs.
    destruct y as [|d y]; [done|].
    destruct (decide (d = ")"%char)) as [->|Hd].
    + intros [= <- <-]. apply span_append in Hs. rewrite !append_assoc.
      change (String "(" (x +:+ String ")" y) = String "(" r). by rewrite Hs.
    + intros H. exfalso. revert H.
      destruct d as [[] [] [] [] [] [] [] []]; try done.
  - intros H.
    assert (sc = None ∧ r1 = String c r) as [-> ->].
    { revert H. destruct c as [[] [] [] [] [] [] [] []];
        try (by intros [= <- <-]). done. }
    reflexivity.
Qed.

Lemma take_bang_spells (r r2 : string) (b : bool) :
  take_bang r = (b, r2) -> (if b then "!" else "") +:+ r2 = r.
Proof.
  unfold take_bang. destruct r as [|c r]; [by intros [= <- <-]|].
  destruct c as [[] [] [] [] [] [] [] []]; by intros [= <- <-].
Qed.

Lemma take_colon_spells (r d : string) :
  take_colon r = Some d -> ": " +:+ d = r.
Proof.
  unfold take_colon. destruct r as [|c r]; [done|].
  destruct r as [|c' r]; [by destruct c as [[] [] [] [] [] [] [] []]|].
  destruct c as [[] [] [] [] [] [] [] []]; try done.
  destruct c' as [[] [] [] [] [] [] [] []]; try done.
  by intros [= <-].
Qed.

Lemma tokenize_untokenize (h : string) (t : HeaderTokens) :
  tokenize h = Some t -> untokenize t = h.
Proof.
  unfold tokenize, untokenize.
  destruct (span is_type_char h) as [w r] eqn:Hw.
  destruct (take_scope r) as [[sc r1]|] eqn:Hsc; [|done].
  destruct (take_bang r1) as [b r2] eqn:Hb.
  destruct (take_colon r2) as [d|] eqn:Hd; [|done].
  destruct (is_empty d); [done|]. intros [= <-]. cbn [tok_type tok_scope tok_bang tok_description].
  apply take_colon_spells in Hd. apply take_bang_spells in Hb.
  apply take_scope_spells in Hsc. apply span_append in Hw.
  by rewrite Hd, Hb, Hsc, Hw.
Qed.

(** *** The tokenizer accepts exactly the grammar *)

Lemma span_forall (p : ascii -> bool) (s a b : string) :
  span p s = (a, b) -> string_forall p a = true.
Proof.
  revert a b. induction s as [|c s IH]; intros a b; simpl.
  - by intros [= <- <-].
  - destruct (p c) eqn:Hp.
    + destruct (span p s) as [a' b'] eqn:Hs. intros [= <- <-].
      simpl. rewrite Hp. by apply (IH a' b').
    + by intros [= <- <-].
Qed.

Lemma span_stops (p : ascii -> bool) (a b : string) :
  string_forall p a = true -> stops p b = true -> span p (a +:+ b) = (a, b).
Proof.
  intros Ha Hb. induction a as [|c a IH].
  - rewrite append_nil. destruct b as [|d b]; [done|].
    simpl in *. by destruct (p d).
  - rewrite append_cons. simpl in *.
    apply andb_prop in Ha as [Hc Ha]. by rewrite Hc, (IH Ha).
Qed.

Lemma letter_type_char (c : ascii) :
  is_letter c = true -> is_type_char c = true.
Proof. destruct c as [[] [] [] [] [] [] [] []]; by vm_compute. Qed.

Lemma string_forall_impl (p q : ascii -> bool) (s : string) :
  (∀ c, p c = true -> q c = true) ->
  string_forall p s = true -> string_forall q s = true.
Proof.
  intros Hpq. induction s as [|c s IH]; [done|]. simpl.
  intros [Hc Hs]%andb_prop. by rewrite (Hpq c Hc), (IH Hs).
Qed.

Lemma type_name_named (w : string) : type_name (named_type w) = w.
Proof.
  unfold named_type.
  repeat (match goal with
          | |- context [String.eqb w ?x] =>
              destruct (String.eqb_spec w x) as [->|_]; [done|]
          end).
  done.
Qed.

Lemma named_type_known (w : string) : named_type w ≠ Unknown.
Proof.
  unfold named_type.
  repeat (match goal with
          | |- context [String.eqb w ?x] => destruct (String.eqb w x); [done|]
          end).
  done.
Qed.

Lemma type_of_word_name (w : string) (ty : CommitType) :
  type_of_word w = Some ty -> type_name ty = lower w ∧ ty ≠ Unknown.
Proof.
  unfold type_of_word. destruct (is_empty w); [done|].
  destruct (string_forall is_letter w); [|done]. intros [= <-].
  split; [apply type_name_named | apply named_type_known].
Qed.

Lemma type_word_chars (w : string) (ty : CommitType) :
  type_of_word w = Some ty -> string_forall is_type_char w = true.
Proof.
  unfold type_of_word. destruct (is_empty w); [done|].
  destruct (string_forall is_letter w) eqn:Hl; [|done]. intros _.
  by apply (string_forall_impl is_letter is_type_char w letter_type_char).
Qed.

Lemma tokenize_well_formed (h : string) (t : HeaderTokens) :
  tokenize h = Some t ->
  (∀ sc, tok_scope t = Some sc -> string_forall is_scope_char sc = true) ∧
  tok_description t ≠ "".
Proof.
  unfold tokenize.
  destruct (span is_type_char h) as [w r].
  destruct (take_scope r) as [[sc r1]|] eqn:Hsc; [|done].
  destruct (take_bang r1) as [b r2].
  destruct (take_colon r2) as [d|]; [|done].
  destruct d as [|c d]; [done|]. intros [= <-].
  cbn [tok_scope tok_description]. split; [|done].
  intros x ->. unfold take_scope in Hsc.
  destruct r as [|c0 r]; [done|].
  destruct (decide (c0 = "("%char)) as [->|Hc].
  - destruct (span is_scope_char r) as [x' y] eqn:Hs.
    destruct y as [|e y]; [done|].
    assert (x' = x) as <-.
    { revert Hsc. destruct e as [[] [] [] [] [] [] [] []]; try done. by intros [= <- _]. }
    by apply span_forall in Hs.
  - exfalso. revert Hsc.
    destruct c0 as [[] [] [] [] [] [] [] []]; try done.
Qed.

Lemma untokenize_tokenize (t : HeaderTokens) :
  string_forall is_type_char (tok_type t) = true ->
  (∀ sc, tok_scope t = Some sc -> string_forall is_scope_char sc = true) ->
  tok_description t ≠ "" ->
  tokenize (untokenize t) = Some t.
Proof.
  destruct t as [w sc b d]. cbn [tok_type tok_scope tok_description].
  intros Hw Hsc Hd. unfold tokenize, untokenize.
  cbn [tok_type tok_scope tok_bang tok_description].
  rewrite (span_stops is_type_char w); [|done|by destruct sc, b].
  assert (Hb : take_bang ((if b then "!" else "") +:+ ": " +:+ d)
               = (b, ": " +:+ d)) by by destruct b.
  assert (Hd' : is_empty d = false) by by destruct d.
  destruct sc as [x|].
  - change (("(" +:+ x +:+ ")") +:+ (if b then "!" else "") +:+ ": " +:+ d)
      with (String "(" ((x +:+ ")") +:+ (if b then "!" else "") +:+ ": " +:+ d)).
    rewrite append_assoc. unfold take_scope.
    rewrite (span_stops is_scope_char x); [|by apply Hsc|done].
    change (")" +:+ (if b then "!" else "") +:+ ": " +:+ d)
      with (String ")" ((if b then "!" else "") +:+ ": " +:+ d)).
    cbv iota beta. rewrite Hb.
    change (take_colon (": " +:+ d)) with (Some d). cbv beta iota.
    by rewrite Hd'.
  - rewrite append_nil.
    assert (Hs : take_scope ((if b then "!" else "") +:+ ": " +:+ d)
                 = Some (None, (if b then "!" else "") +:+ ": " +:+ d))
      by by destruct b.
    rewrite Hs, Hb.
    change (take_colon (": " +:+ d)) with (Some d). cbv beta iota.
    by rewrite Hd'.
Qed.

(** The executable test [conforms] decides the grammar. *)
Lemma conforms_matches_grammar (msg : string) :
  conforms msg = true <-> matches_grammar msg.
Proof.
  unfold conforms, matches_grammar, parse_header. split.
  - destruct (tokenize (header_line msg)) as [t|] eqn:Ht; [|done].
    destruct (type_of_word (tok_type t)) as [ty|] eqn:Hty; [|done].
    intros _. exists t. split; [|by apply tokenize_untokenize].
    destruct (tokenize_well_formed _ _ Ht) as [Hsc Hd].
    split; [by rewrite Hty|done].
  - intros (t & ([ty Hty] & Hsc & Hd) & Hh). rewrite <- Hh.
    rewrite (untokenize_tokenize t); [|by eapply type_word_chars|done|done].
    by rewrite Hty.
Qed.

Lemma parse_header_conforms (msg : string) :
  conforms msg = true <-> ∃ ty t, parse_header (header_line msg) = Some (ty, t).
Proof.
  unfold conforms. destruct (parse_header (header_line msg)) as [[ty t]|].
  - split; [eauto|done].
  - split; [done|]. by intros (ty & t & ?).
Qed.

(** A conforming message is never degraded. *)
Lemma conforming_is_known (rc : RawCommit) :
  matches_grammar (message rc) -> type (parse rc) ≠ Unknown.
Proof.
  intros (ty & t & Hp)%conforms_matches_grammar%parse_header_conforms.
  unfold parse. rewrite Hp.
  destruct (body_and_footers _) as [bd fs]. cbn [type].
  unfold parse_header in Hp.
  destruct (tokenize _) as [t'|]; [|done].
  destruct (type_of_word (tok_type t')) as [ty'|] eqn:Hty; [|done].
  injection Hp as <- <-. by apply type_of_word_name in Hty as [_ ?].
Qed.

(** *** The parser *)




(** So does the upper-case header [FEAT: add x]: it conforms, since types
    are matched without regard to case, and renders as [feat: add x]. *)
Lemma header_roundtrip_fails_uppercase :
  matches_grammar (message (commit "a1" "FEAT: add x" 1)) ∧
  render_header (parse (commit "a1" "FEAT: add x" 1)) = "feat: add x" ∧
  render_header (parse (commit "a1" "FEAT: add x" 1))
    ≠ header_line (message (commit "a1" "FEAT: add x" 1)).
Proof.
  split; [by apply conforms_matches_grammar|].
  repeat split; try reflexivity. discriminate.
Qed.

(** And a scope written with inner margins, [feat( api ): add x]. *)
Lemma header_roundtrip_fails_padded_scope :
  matches_grammar (message (commit "a1" "feat( api ): add x" 1)) ∧
  render_header (parse (commit "a1" "feat( api ): add x" 1)) = "feat(api): add x".
Proof. split; [by apply conforms_matches_grammar|reflexivity]. Qed.

(** The failure does not depend on how the header is rendered: with the
    footer present, the headers [feat: add x] and [feat!: add x] parse to
    the same type, scope, marker and description, so no function of these
    four gives back both. *)
Lemma no_renderer_roundtrips
  (render : CommitType -> option string -> bool -> string -> string) :
  ¬ ∀ rc, matches_grammar (message rc) ->
          render (type (parse rc)) (scope (parse rc)) (breaking (parse rc))
                 (description (parse rc))
          = header_line (message rc).
Proof.
  intros H.
  assert (H1 := H footer_breaking_feat
                  (proj1 (conforms_matches_grammar (message footer_breaking_feat)) eq_refl)).
  assert (H2 := H marked_breaking_feat
                  (proj1 (conforms_matches_grammar (message marked_breaking_feat)) eq_refl)).
  vm_compute in H1, H2. rewrite H1 in H2. discriminate.
Qed.

(** *** The resolver *)

Lemma existsb_elem {A} (f : A -> bool) (l : list A) (x : A) :
  x ∈ l -> f x = true -> existsb f l = true.
Proof.
  intros Hin Hf. apply existsb_exists. exists x. split; [|done].
  by apply list_elem_of_In.
Qed.

(** C2.  When some commit of the sequence is breaking, the resolved bump is
    major, whatever the types of the commits, and the next version is the
    next major version. *)
Theorem breaking_forces_major (current : Semver) (cs : list ParsedCommit) :
  (∃ c, c ∈ cs ∧ breaking c = true) ->
  bump (resolve current cs) = BumpMajor ∧
  nextVersion (resolve current cs)
    = {| major := S (major current); minor := 0; patch := 0 |}.
Proof.
  intros (c & Hin & Hb). unfold resolve, resolve_bump.
  by rewrite (existsb_elem breaking cs c Hin Hb).
Qed.

(** C2 at the fourth of the sample commits, [perf!: drop z]. *)
Lemma breaking_forces_major_witness :
  (∃ c, c ∈ sample_commits ∧ breaking c = true) ∧
  bump (resolve {| major := 1; minor := 2; patch := 3 |} sample_commits) = BumpMajor.
Proof.
  assert (H : ∃ c, c ∈ sample_commits ∧ breaking c = true).
  { exists (parse (commit "d4" "perf!: drop z" 4)). split; [|reflexivity].
    unfold sample_commits. do 3 apply list_elem_of_further. apply list_elem_of_here. }
  split; [exact H|].
  exact (proj1 (breaking_forces_major {| major := 1; minor := 2; patch := 3 |}
                  sample_commits H)).
Defined.

(** C6.  The commits [feat: add x] and [fix: correct y] on version 1.2.3
    resolve to a minor bump and to version 1.3.0, whatever their hashes and
    dates. *)
Theorem resolve_feat_and_fix (h1 h2 : string) (t1 t2 : Z) :
  resolve {| major := 1; minor := 2; patch := 3 |}
          [parse (commit h1 "feat: add x" t1); parse (commit h2 "fix: correct y" t2)]
  = {| bump := BumpMinor;
       nextVersion := {| major := 1; minor := 3; patch := 0 |} |}.
Proof. reflexivity. Qed.

End EngineSpec.

(** ** The shims beyond their guards: exceptions and complete runs *)

Module ShimRuns.
Import Shim.

(** *** The event loop *)

Lemma step_inv (s s' : state) :
  step s s' ->
  ∃ pre cmd cb post r,
    pending s = pre ++ (cmd, cb) :: post ∧
    s' = State (launched s) (pre ++ post) (finished s ++ [(cmd, r)])
               (console s ++ cb r).
Proof. destruct 1 as [l pre cmd cb post f out r]. by exists pre, cmd, cb, post, r. Qed.

Lemma quiescent_final (s s' : state) : quiescent s -> rtc step s s' -> s' = s.
Proof.
  intros Hq Hr. destruct (rtc_inv _ _ Hr) as [<-|(s1 & H1 & _)]; [done|].
  apply step_inv in H1 as (pre & cmd & cb & post & r & Hp & _).
  unfold quiescent in Hq. rewrite Hq in Hp. by destruct pre.
Qed.

(** With one child running, the loop has one turn to take. *)
Lemma one_child_runs (s s' : state) (cmd : string) (cb : callback) :
  pending s = [(cmd, cb)] ->
  rtc step s s' ->
  s' = s ∨
  ∃ r, s' = State (launched s) [] (finished s ++ [(cmd, r)]) (console s ++ cb r).
Proof.
  intros Hp Hr. destruct (rtc_inv _ _ Hr) as [<-|(s1 & H1 & Hr1)]; [by left|].
  right. apply step_inv in H1 as (pre & c & k & post & r & Hp1 & ->).
  rewrite Hp in Hp1.
  destruct pre as [|x pre]; [|by destruct pre].
  simpl in Hp1. simplify_eq. exists r.
  by apply quiescent_final in Hr1.
Qed.

(** With two children running, they exit in either order. *)
Lemma two_children_runs (s s' : state) (c1 c2 : string) (k1 k2 : callback) :
  pending s = [(c1, k1); (c2, k2)] ->
  rtc step s s' ->
  quiescent s' ->
  ∃ r1 r2,
    s' = State (launched s) [] (finished s ++ [(c1, r1); (c2, r2)])
               (console s ++ k1 r1 ++ k2 r2) ∨
    s' = State (launched s) [] (finished s ++ [(c2, r2); (c1, r1)])
               (console s ++ k2 r2 ++ k1 r1).
Proof.
  intros Hp Hr Hq. destruct (rtc_inv _ _ Hr) as [<-|(s1 & H1 & Hr1)].
  { unfold quiescent in Hq. by rewrite Hp in Hq. }
  apply step_inv in H1 as (pre & c & k & post & r & Hp1 & ->).
  rewrite Hp in Hp1.
  destruct pre as [|x pre].
  - simpl in Hp1. simplify_eq.
    apply (one_child_runs _ _ c2 k2) in Hr1 as [->|[r2 ->]]; [done| |done].
    exists r, r2. left. cbn. by rewrite <- !app_assoc.
  - destruct pre as [|y pre]; [|by destruct pre].
    simpl in Hp1. simplify_eq.
    apply (one_child_runs _ _ c1 k1) in Hr1 as [->|[r1 ->]]; [done| |done].
    exists r1, r. right. cbn. by rewrite <- !app_assoc.
Qed.

(** Every state two running children can lead to. *)
Lemma two_children_states (s s' : state) (c1 c2 : string) (k1 k2 : callback) :
  pending s = [(c1, k1); (c2, k2)] ->
  rtc step s s' ->
  s' = s ∨
  (∃ r1, s' = State (launched s) [(c2, k2)] (finished s ++ [(c1, r1)])
                    (console s ++ k1 r1)) ∨
  (∃ r2, s' = State (launched s) [(c1, k1)] (finished s ++ [(c2, r2)])
                    (console s ++ k2 r2)) ∨
  (∃ r1 r2, s' = State (launched s) [] (finished s ++ [(c1, r1); (c2, r2)])
                       (console s ++ k1 r1 ++ k2 r2)) ∨
  (∃ r1 r2, s' = State (launched s) [] (finished s ++ [(c2, r2); (c1, r1)])
                       (console s ++ k2 r2 ++ k1 r1)).
Proof.
  intros Hp Hr. destruct (rtc_inv _ _ Hr) as [<-|(s1 & H1 & Hr1)]; [by left|].
  right. apply step_inv in H1 as (pre & c & k & post & r & Hp1 & ->).
  rewrite Hp in Hp1.
  destruct pre as [|x pre].
  - simpl in Hp1. simplify_eq.
    apply (one_child_runs _ _ c2 k2) in Hr1 as [->|[r2 ->]]; [| |done].
    + left. by exists r.
    + right. right. left. exists r, r2. cbn. by rewrite <- !app_assoc.
  - destruct pre as [|y pre]; [|by destruct pre].
    simpl in Hp1. simplify_eq.
    apply (one_child_runs _ _ c1 k1) in Hr1 as [->|[r1 ->]]; [| |done].
    + right. left. by exists r.
    + right. right. right. exists r1, r. cbn. by rewrite <- !app_assoc.
Qed.

(** *** The home directory *)

Ltac home_cases e :=
  unfold home_dir, js_or, falsy;
  destruct (e !! "HOME") as [[|? ?]|], (e !! "USERPROFILE") as [[|? ?]|],
    (e !! "HOMEPATH") as [?|];
  intuition congruence.

Lemma home_dir_none (e : gmap string string) :
  home_dir e = None <->
  falsy (e !! "HOME") ∧ falsy (e !! "USERPROFILE") ∧ e !! "HOMEPATH" = None.
Proof. home_cases e. Qed.

Lemma home_dir_some (e : gmap string string) (h : string) :
  home_dir e = Some h <->
  (e !! "HOME" = Some h ∧ h ≠ "") ∨
  (falsy (e !! "HOME") ∧ e !! "USERPROFILE" = Some h ∧ h ≠ "") ∨
  (falsy (e !! "HOME") ∧ falsy (e !! "USERPROFILE") ∧ e !! "HOMEPATH" = Some h).
Proof. home_cases e. Qed.

Lemma nsteps_pending (n : nat) (s s' : state) :
  nsteps step n s s' -> length (pending s') + n = length (pending s).
Proof.
  induction 1 as [s|n s1 s2 s3 H12 _ IH]; [lia|].
  apply step_inv in H12 as (pre & cmd & cb & post & r & Hp & ->).
  rewrite Hp. cbn [pending] in IH. rewrite !length_app in *. cbn [length]. lia.
Qed.

Lemma loop_finishes_quietly (s : state) :
  ∃ s', rtc step s s' ∧ quiescent s' ∧
        finished s' = finished s ++ List.map (fun p => (fst p, quiet_exit)) (pending s).
Proof.
  destruct s as [l p f out]. revert f out.
  induction p as [|[cmd cb] p IH]; intros f out.
  - eexists. split; [apply rtc_refl|]. split; [done|]. cbn. by rewrite app_nil_r.
  - destruct (IH (f ++ [(cmd, quiet_exit)]) (out ++ cb quiet_exit))
      as (s' & Hr & Hq & Hf).
    exists s'. split; [|split; [done|]].
    + eapply rtc_l; [|exact Hr].
      exact (step_child_exit l [] cmd cb p f out quiet_exit).
    + rewrite Hf. cbn. by rewrite <- app_assoc.
Qed.

Lemma loop_can_finish (s : state) : ∃ s', rtc step s s' ∧ quiescent s'.
Proof. destruct (loop_finishes_quietly s) as (s' & ? & ? & _). eauto. Qed.

Section Runs.
Variable path_join : list string -> string.

(** *** Exceptions *)

(** X1.  [pre-install.js] ends with an exception exactly when [HOME] and
    [USERPROFILE] are unset or empty and [HOMEPATH] is unset (an empty
    [HOMEPATH] is accepted); it then has printed nothing and started no
    child, and nothing happens afterwards.  In every other environment the
    script runs to its end. *)
Theorem pre_install_exception (w : world) :
  ((∃ e, outcome (pre_install path_join w) = inl e) <->
   falsy (env w !! "HOME") ∧ falsy (env w !! "USERPROFILE")
   ∧ env w !! "HOMEPATH" = None) ∧
  ((∃ e, outcome (pre_install path_join w) = inl e) ∨
   outcome (pre_install path_join w) = inr tt) ∧
  ((∃ e, outcome (pre_install path_join w) = inl e) ->
   trace (pre_install path_join w) = [] ∧
   ∀ s, rtc step (after_sync (pre_install path_join w)) s ->
        launched s = [] ∧ console s = [] ∧ quiescent s).
Proof.
  rewrite <- home_dir_none.
  destruct (home_dir (env w)) as [h|] eqn:Hh.
  - rewrite (ShimSpec.pre_install_unfold path_join w h Hh). unfold outcome. cbn [snd].
    split; [|split].
    + split; [by intros [e ?]|done].
    + by right.
    + by intros [e ?].
  - unfold pre_install. rewrite Hh. cbn.
    split; [|split].
    + split; [done|by eexists].
    + left. by eexists.
    + intros _. split; [done|]. intros s Hs.
      apply quiescent_final in Hs; [|done]. by subst s.
Qed.

(** X2.  The same for [uninstall.js]. *)
Theorem uninstall_exception (w : world) :
  ((∃ e, outcome (uninstall path_join w) = inl e) <->
   falsy (env w !! "HOME") ∧ falsy (env w !! "USERPROFILE")
   ∧ env w !! "HOMEPATH" = None) ∧
  ((∃ e, outcome (uninstall path_join w) = inl e) ∨
   outcome (uninstall path_join w) = inr tt) ∧
  ((∃ e, outcome (uninstall path_join w) = inl e) ->
   trace (uninstall path_join w) = [] ∧
   ∀ s, rtc step (after_sync (uninstall path_join w)) s ->
        launched s = [] ∧ console s = [] ∧ quiescent s).
Proof.
  rewrite <- home_dir_none.
  destruct (home_dir (env w)) as [h|] eqn:Hh.
  - rewrite (ShimSpec.uninstall_unfold path_join w h Hh). unfold outcome. cbn [snd].
    split; [|split].
    + split; [by intros [e ?]|done].
    + by right.
    + by intros [e ?].
  - unfold uninstall. rewrite Hh. cbn.
    split; [|split].
    + split; [done|by eexists].
    + left. by eexists.
    + intros _. split; [done|]. intros s Hs.
      apply quiescent_final in Hs; [|done]. by subst s.
Qed.

(** *** Which directory gates the bootstrap *)

(** X3.  The directory [pre-install.js] looks for is [.cargo] under [HOME]
    when [HOME] is not empty, else under [USERPROFILE] when that is not
    empty, else under [HOMEPATH] (even when empty).  When it exists the
    script prints the banner and starts the install; when it does not, the
    script first prints [Installing deps [cargo].] and starts the rustup
    bootstrap. *)
Theorem bootstrap_gate (w : world) (h : string) :
  (env w !! "HOME" = Some h ∧ h ≠ "") ∨
  (falsy (env w !! "HOME") ∧ env w !! "USERPROFILE" = Some h ∧ h ≠ "") ∨
  (falsy (env w !! "HOME") ∧ falsy (env w !! "USERPROFILE")
   ∧ env w !! "HOMEPATH" = Some h) ->
  (path_join [h; ".cargo"] ∈ files w ->
   trace (pre_install path_join w)
   = [Log (PStr (install_banner (version w)));
      Exec (install_command (version w)) install_done]) ∧
  (path_join [h; ".cargo"] ∉ files w ->
   trace (pre_install path_join w)
   = [Log (PStr "Installing deps [cargo].");
      Exec rustup_command bootstrap_done;
      Log (PStr (install_banner (version w)));
      Exec (install_command (version w)) install_done]).
Proof.
  intros Hh%home_dir_some.
  rewrite (ShimSpec.pre_install_unfold path_join w h Hh).
  unfold trace, existsSync. cbn [fst].
  split; intros Hd.
  - by rewrite bool_decide_eq_true_2.
  - by rewrite bool_decide_eq_false_2.
Qed.

(** *** Complete runs *)

Lemma uninstall_started (w : world) (h : string) :
  home_dir (env w) = Some h ->
  path_join [h; ".cargo"; "bin"; "donder-release"] ∈ files w ->
  after_sync (uninstall path_join w)
  = State [uninstall_command] [(uninstall_command, uninstall_done)] []
          [PStr "Uninstalling donder-release..."].
Proof.
  intros Hh Hin. rewrite (ShimSpec.uninstall_unfold path_join w h Hh).
  unfold existsSync. by rewrite bool_decide_eq_true_2.
Qed.

Lemma pre_install_started (w : world) (h : string) :
  home_dir (env w) = Some h ->
  after_sync (pre_install path_join w)
  = if bool_decide (path_join [h; ".cargo"] ∈ files w)
    then State [install_command (version w)]
               [(install_command (version w), install_done)] []
               [PStr (install_banner (version w))]
    else State [rustup_command; install_command (version w)]
               [(rustup_command, bootstrap_done);
                (install_command (version w), install_done)] []
               [PStr "Installing deps [cargo]."; PStr (install_banner (version w))].
Proof.
  intros Hh. rewrite (ShimSpec.pre_install_unfold path_join w h Hh).
  unfold existsSync. by case_bool_decide.
Qed.

(** X4.  A run of [uninstall.js] that finds the binary: until the child
    exits only the opening line is printed; once it has exited the output is
    the opening line, the child's [stdout], and then the error if there is
    one, else the child's [stderr] if it is not empty.  There is no line
    that confirms success. *)
Theorem uninstall_run (w : world) (h : string) (s : state) :
  home_dir (env w) = Some h ->
  path_join [h; ".cargo"; "bin"; "donder-release"] ∈ files w ->
  rtc step (after_sync (uninstall path_join w)) s ->
  launched s = ["cargo uninstall donder-release"] ∧
  ((¬ quiescent s ∧ finished s = [] ∧
    console s = [PStr "Uninstalling donder-release..."]) ∨
   (∃ r, quiescent s ∧ finished s = [("cargo uninstall donder-release", r)] ∧
         console s
         = PStr "Uninstalling donder-release..." :: PStr (res_stdout r) ::
           match res_error r, res_stderr r with
           | Some e, _ => [PErr e]
           | None, EmptyString => []
           | None, err => [PStr err]
           end)).
Proof.
  intros Hh Hin. rewrite (uninstall_started w h Hh Hin). intros Hs.
  apply (one_child_runs _ _ uninstall_command uninstall_done) in Hs
    as [->|[r ->]]; [| |done]; cbn [launched finished console pending].
  - split; [done|]. by left.
  - split; [done|]. right. exists r. split; [done|]. split; [done|].
    unfold uninstall_done. cbn.
    by destruct (res_error r), (res_stderr r).
Qed.

(** X5.  A run of [pre-install.js] that finds the toolchain directory:
    until the install exits only the banner is printed; once it has exited
    the output is the banner, the child's [stdout], and then the error if
    there is one, else the child's [stderr] if it is not empty, else
    [install finished!]. *)
Theorem pre_install_run (w : world) (h : string) (s : state) :
  home_dir (env w) = Some h ->
  path_join [h; ".cargo"] ∈ files w ->
  rtc step (after_sync (pre_install path_join w)) s ->
  launched s = ["cargo install donder-release --vers " +:+ version w] ∧
  ((¬ quiescent s ∧ finished s = [] ∧
    console s
    = [PStr ("Installing and compiling donder-release " +:+ version w +:+ "...")]) ∨
   (∃ r, quiescent s ∧
         finished s = [("cargo install donder-release --vers " +:+ version w, r)] ∧
         console s
         = PStr ("Installing and compiling donder-release " +:+ version w +:+ "...")
           :: PStr (res_stdout r) ::
           match res_error r, res_stderr r with
           | Some e, _ => [PErr e]
           | None, EmptyString => [PStr "install finished!"]
           | None, err => [PStr err]
           end)).
Proof.
  intros Hh Hin. rewrite (pre_install_started w h Hh).
  rewrite bool_decide_eq_true_2 by done. intros Hs.
  apply (one_child_runs _ _ (install_command (version w)) install_done) in Hs
    as [->|[r ->]]; [| |done]; cbn [launched finished console pending].
  - split; [done|]. by left.
  - split; [done|]. right. exists r. split; [done|]. split; [done|].
    unfold install_done. cbn.
    by destruct (res_error r), (res_stderr r).
Qed.

Lemma rustup_is_not_install (v : string) : rustup_command ≠ install_command v.
Proof.
  intros H.
  apply (f_equal (fun c => match c with
                           | String _ (String b _) => Some b
                           | _ => None
                           end)) in H.
  vm_compute in H. discriminate H.
Qed.

(** The quiescent states of a run that starts the bootstrap. *)
Lemma bootstrap_run_ends (w : world) (h : string) (s : state) :
  home_dir (env w) = Some h ->
  path_join [h; ".cargo"] ∉ files w ->
  rtc step (after_sync (pre_install path_join w)) s ->
  quiescent s ->
  ∃ r1 r2,
    (finished s = [(rustup_command, r1); (install_command (version w), r2)] ∧
     console s = [PStr "Installing deps [cargo]."; PStr (install_banner (version w))]
                 ++ bootstrap_done r1 ++ install_done r2) ∨
    (finished s = [(install_command (version w), r2); (rustup_command, r1)] ∧
     console s = [PStr "Installing deps [cargo]."; PStr (install_banner (version w))]
                 ++ install_done r2 ++ bootstrap_done r1).
Proof.
  intros Hh Hout. rewrite (pre_install_started w h Hh).
  rewrite bool_decide_eq_false_2 by done. intros Hs Hq.
  apply (two_children_runs _ _ rustup_command (install_command (version w))
           bootstrap_done install_done) in Hs as (r1 & r2 & [-> | ->]);
    [| |done|done]; exists r1, r2; [left|right]; done.
Qed.

(** X6.  The states of a run of [pre-install.js] that does not find the
    toolchain directory: both children running, with the two opening lines
    printed; one of them exited, with its callback's output added; both
    exited, with the outputs of the two callbacks after the opening lines in
    the order in which the children exited. *)
Theorem pre_install_bootstrap_run (w : world) (h : string) (s : state) :
  home_dir (env w) = Some h ->
  path_join [h; ".cargo"] ∉ files w ->
  rtc step (after_sync (pre_install path_join w)) s ->
  (pending s = [(rustup_command, bootstrap_done);
                (install_command (version w), install_done)] ∧
   finished s = [] ∧
   console s = [PStr "Installing deps [cargo]."; PStr (install_banner (version w))]) ∨
  (∃ r1, pending s = [(install_command (version w), install_done)] ∧
         finished s = [(rustup_command, r1)] ∧
         console s = [PStr "Installing deps [cargo]."; PStr (install_banner (version w))]
                     ++ bootstrap_done r1) ∨
  (∃ r2, pending s = [(rustup_command, bootstrap_done)] ∧
         finished s = [(install_command (version w), r2)] ∧
         console s = [PStr "Installing deps [cargo]."; PStr (install_banner (version w))]
                     ++ install_done r2) ∨
  (∃ r1 r2, quiescent s ∧
            finished s = [(rustup_command, r1); (install_command (version w), r2)] ∧
            console s = [PStr "Installing deps [cargo]."; PStr (install_banner (version w))]
                        ++ bootstrap_done r1 ++ install_done r2) ∨
  (∃ r1 r2, quiescent s ∧
            finished s = [(install_command (version w), r2); (rustup_command, r1)] ∧
            console s = [PStr "Installing deps [cargo]."; PStr (install_banner (version w))]
                        ++ install_done r2 ++ bootstrap_done r1).
Proof.
  intros Hh Hout. rewrite (pre_install_started w h Hh).
  rewrite bool_decide_eq_false_2 by done. intros Hs.
  apply (two_children_states _ _ rustup_command (install_command (version w))
           bootstrap_done install_done) in Hs
    as [->|[[r1 ->]|[[r2 ->]|[(r1 & r2 & ->)|(r1 & r2 & ->)]]]]; [| | | | |done].
  - by left.
  - right. left. by exists r1.
  - right. right. left. by exists r2.
  - right. right. right. left. by exists r1, r2.
  - right. right. right. right. by exists r1, r2.
Qed.

(** X7.  Both orders occur: whatever the two children report, the run in
    which the install is reported before the bootstrap is a run of the
    script, and so is the run in the other order. *)
Theorem pre_install_both_orders (w : world) (h : string) (r1 r2 : child_result) :
  home_dir (env w) = Some h ->
  path_join [h; ".cargo"] ∉ files w ->
  (∃ s, rtc step (after_sync (pre_install path_join w)) s ∧ quiescent s ∧
        console s = [PStr "Installing deps [cargo]."; PStr (install_banner (version w))]
                    ++ install_done r2 ++ bootstrap_done r1) ∧
  (∃ s, rtc step (after_sync (pre_install path_join w)) s ∧ quiescent s ∧
        console s = [PStr "Installing deps [cargo]."; PStr (install_banner (version w))]
                    ++ bootstrap_done r1 ++ install_done r2).
Proof.
  intros Hh Hout. rewrite (pre_install_started w h Hh).
  rewrite bool_decide_eq_false_2 by done.
  set (l := [rustup_command; install_command (version w)]).
  set (out := [PStr "Installing deps [cargo]."; PStr (install_banner (version w))]).
  split.
  - eexists. split; [|split].
    + eapply rtc_l.
      { exact (step_child_exit l [(rustup_command, bootstrap_done)]
                 (install_command (version w)) install_done [] [] out r2). }
      eapply rtc_l; [|apply rtc_refl].
      exact (step_child_exit l [] rustup_command bootstrap_done [] _ _ r1).
    + done.
    + cbn [console]. by rewrite <- app_assoc.
  - eexists. split; [|split].
    + eapply rtc_l.
      { exact (step_child_exit l [] rustup_command bootstrap_done
                 [(install_command (version w), install_done)] [] out r1). }
      eapply rtc_l; [|apply rtc_refl].
      exact (step_child_exit l [] (install_command (version w)) install_done [] _ _ r2).
    + done.
    + cbn [console]. by rewrite <- app_assoc.
Qed.

(** X8.  The bootstrap is silent unless it fails: when the rustup child
    exits without error, nothing of what it wrote is printed, and the
    complete output is the two opening lines followed by the report of the
    install, whichever child exited first. *)
Theorem bootstrap_silent (w : world) (h : string) (s : state) :
  home_dir (env w) = Some h ->
  path_join [h; ".cargo"] ∉ files w ->
  rtc step (after_sync (pre_install path_join w)) s ->
  quiescent s ->
  (∀ r, (rustup_command, r) ∈ finished s -> res_error r = None) ->
  ∃ r2, (install_command (version w), r2) ∈ finished s ∧
        console s = [PStr "Installing deps [cargo]."; PStr (install_banner (version w))]
                    ++ install_done r2.
Proof.
  intros Hh Hout Hs Hq Hok.
  destruct (bootstrap_run_ends w h s Hh Hout Hs Hq)
    as (r1 & r2 & [[Hf Hc]|[Hf Hc]]); exists r2; rewrite Hf in *.
  - assert (He : res_error r1 = None) by (apply Hok; apply list_elem_of_here).
    split; [apply list_elem_of_further, list_elem_of_here|].
    rewrite Hc. unfold bootstrap_done. by rewrite He.
  - assert (He : res_error r1 = None)
      by (apply Hok; apply list_elem_of_further, list_elem_of_here).
    split; [apply list_elem_of_here|].
    rewrite Hc. unfold bootstrap_done. rewrite He. by rewrite app_nil_r.
Qed.

(** X9.  A bootstrap that fails is always reported, and as a curl failure
    whatever went wrong: in every state in which the rustup child has
    exited with an error, the line [curl failed! ...] and then the error
    have been printed, after the two opening lines. *)
Theorem bootstrap_failure_reported
  (w : world) (h : string) (s : state) (r : child_result) (e : exec_error) :
  home_dir (env w) = Some h ->
  path_join [h; ".cargo"] ∉ files w ->
  rtc step (after_sync (pre_install path_join w)) s ->
  (rustup_command, r) ∈ finished s ->
  res_error r = Some e ->
  ∃ before after,
    console s
    = [PStr "Installing deps [cargo]."; PStr (install_banner (version w))]
      ++ before
      ++ [PStr "curl failed! Curl may not be installed on the OS. View https://curl.se/download.html to install.";
          PErr e]
      ++ after.
Proof.
  intros Hh Hout. rewrite (pre_install_started w h Hh).
  rewrite bool_decide_eq_false_2 by done. intros Hs Hin He.
  assert (Hb : bootstrap_done r
               = [PStr "curl failed! Curl may not be installed on the OS. View https://curl.se/download.html to install.";
                  PErr e]).
  { unfold bootstrap_done. by rewrite He. }
  pose proof (rustup_is_not_install (version w)) as Hne.
  apply (two_children_states _ _ rustup_command (install_command (version w))
           bootstrap_done install_done) in Hs
    as [->|[[r1 ->]|[[r2 ->]|[(r1 & r2 & ->)|(r1 & r2 & ->)]]]]; [| | | | |done];
    cbn [finished console app] in Hin |- *.
  - by apply elem_of_nil in Hin.
  - apply list_elem_of_singleton in Hin. simplify_eq.
    exists [], []. by rewrite Hb.
  - apply list_elem_of_singleton in Hin. by simplify_eq.
  - rewrite !elem_of_cons, elem_of_nil in Hin.
    destruct Hin as [Hin|[Hin|[]]]; simplify_eq.
    exists [], (install_done r2). by rewrite Hb.
  - rewrite !elem_of_cons, elem_of_nil in Hin.
    destruct Hin as [Hin|[Hin|[]]]; simplify_eq.
    exists (install_done r2), []. by rewrite Hb.
Qed.

Lemma children_commands (t : list effect) :
  length (children t) = length (commands t).
Proof. induction t as [|[p|cmd cb] t IH]; cbn; by rewrite ?IH. Qed.

Lemma started_children (w : world) :
  length (pending (after_sync (pre_install path_join w)))
  = length (commands (trace (pre_install path_join w))) ∧
  length (pending (after_sync (uninstall path_join w)))
  = length (commands (trace (uninstall path_join w))).
Proof.
  destruct (home_dir (env w)) as [h|] eqn:Hh.
  - rewrite (ShimSpec.pre_install_unfold path_join w h Hh),
            (ShimSpec.uninstall_unfold path_join w h Hh).
    unfold after_sync, outcome, trace. cbn [fst snd pending].
    by rewrite !children_commands.
  - unfold pre_install, uninstall. rewrite Hh. by cbn.
Qed.

(** X10.  One callback is delivered for each child a script starts, and
    none starts another child: after [n] deliveries the children still
    running are those started less [n].  So a run is over after exactly as
    many deliveries as the script started children, at most two for
    [pre-install.js] and one for [uninstall.js]; the commands launched never
    change, and from every state the loop can run to the end. *)
Theorem scripts_finish (w : world) (n : nat) (s : state) :
  (nsteps step n (after_sync (pre_install path_join w)) s ->
   n + length (pending s) = length (commands (trace (pre_install path_join w))) ∧
   n ≤ 2 ∧ launched s = commands (trace (pre_install path_join w)) ∧
   ∃ s', rtc step s s' ∧ quiescent s') ∧
  (nsteps step n (after_sync (uninstall path_join w)) s ->
   n + length (pending s) = length (commands (trace (uninstall path_join w))) ∧
   n ≤ 1 ∧ launched s = commands (trace (uninstall path_join w)) ∧
   ∃ s', rtc step s s' ∧ quiescent s').
Proof.
  destruct (started_children w) as [Hp Hu].
  split; intros Hn.
  - pose proof (nsteps_pending _ _ _ Hn) as Hlen. rewrite Hp in Hlen.
    split; [lia|]. split; [|split; [|apply loop_can_finish]].
    + destruct (home_dir (env w)) as [h|] eqn:Hh.
      * rewrite (ShimSpec.pre_install_unfold path_join w h Hh) in Hlen.
        revert Hlen. unfold trace. cbn [fst].
        destruct (existsSync w _); cbn; lia.
      * revert Hlen. unfold pre_install. rewrite Hh. cbn. lia.
    + by rewrite (ShimSpec.steps_launched _ _ (rtc_nsteps_2 _ _ _ Hn)).
  - pose proof (nsteps_pending _ _ _ Hn) as Hlen. rewrite Hu in Hlen.
    split; [lia|]. split; [|split; [|apply loop_can_finish]].
    + destruct (home_dir (env w)) as [h|] eqn:Hh.
      * rewrite (ShimSpec.uninstall_unfold path_join w h Hh) in Hlen.
        revert Hlen. unfold trace. cbn [fst].
        destruct (existsSync w _); cbn; lia.
      * revert Hlen. unfold uninstall. rewrite Hh. cbn. lia.
    + by rewrite (ShimSpec.steps_launched _ _ (rtc_nsteps_2 _ _ _ Hn)).
Qed.

End Runs.

Lemma fresh_home : home_dir (env linux_world) = Some "/home/dev".
Proof. reflexivity. Qed.

Lemma fresh_home_no_toolchain : slash_join ["/home/dev"; ".cargo"] ∉ files linux_world.
Proof. apply not_elem_of_empty. Qed.

Lemma installed_home : home_dir (env linux_world_installed) = Some "/home/dev".
Proof. reflexivity. Qed.

Lemma installed_home_toolchain :
  slash_join ["/home/dev"; ".cargo"] ∈ files linux_world_installed.
Proof. vm_compute. reflexivity. Qed.

Lemma installed_home_binary :
  slash_join ["/home/dev"; ".cargo"; "bin"; "donder-release"]
  ∈ files linux_world_installed.
Proof. vm_compute. reflexivity. Qed.

(** X4 at a home with the binary, before the child has exited. *)
Lemma uninstall_run_witness :
  home_dir (env linux_world_installed) = Some "/home/dev" ∧
  slash_join ["/home/dev"; ".cargo"; "bin"; "donder-release"]
  ∈ files linux_world_installed ∧
  launched (after_sync (uninstall slash_join linux_world_installed))
  = ["cargo uninstall donder-release"].
Proof.
  split; [exact installed_home|]. split; [exact installed_home_binary|].
  exact (proj1 (uninstall_run slash_join linux_world_installed "/home/dev" _
                  installed_home installed_home_binary (rtc_refl _ _))).
Defined.

(** X5 at a home with the toolchain, before the install has exited. *)
Lemma pre_install_run_witness :
  home_dir (env linux_world_installed) = Some "/home/dev" ∧
  slash_join ["/home/dev"; ".cargo"] ∈ files linux_world_installed ∧
  launched (after_sync (pre_install slash_join linux_world_installed))
  = ["cargo install donder-release --vers " +:+ version linux_world_installed].
Proof.
  split; [exact installed_home|]. split; [exact installed_home_toolchain|].
  exact (proj1 (pre_install_run slash_join linux_world_installed "/home/dev" _
                  installed_home installed_home_toolchain (rtc_refl _ _))).
Defined.

(** X6 at a fresh home, on a run in which both children exit quietly. *)
Lemma pre_install_bootstrap_run_witness :
  home_dir (env linux_world) = Some "/home/dev" ∧
  (slash_join ["/home/dev"; ".cargo"] ∉ files linux_world) ∧
  ∃ s, rtc step (after_sync (pre_install slash_join linux_world)) s ∧
       quiescent s ∧ length (finished s) = 2.
Proof.
  split; [exact fresh_home|]. split; [exact fresh_home_no_toolchain|].
  destruct (loop_can_finish (after_sync (pre_install slash_join linux_world)))
    as (s & Hs & Hq).
  exists s. split; [exact Hs|]. split; [exact Hq|].
  destruct (pre_install_bootstrap_run slash_join linux_world "/home/dev" s
              fresh_home fresh_home_no_toolchain Hs)
    as [(Hp & _)|[(r1 & Hp & _)|[(r2 & Hp & _)|
        [(r1 & r2 & _ & Hf & _)|(r1 & r2 & _ & Hf & _)]]]];
    try (unfold quiescent in Hq; rewrite Hp in Hq; discriminate Hq);
    rewrite Hf; reflexivity.
Defined.

(** X7 at a fresh home, with a failing bootstrap and a quiet install. *)
Lemma pre_install_both_orders_witness :
  home_dir (env linux_world) = Some "/home/dev" ∧
  (slash_join ["/home/dev"; ".cargo"] ∉ files linux_world) ∧
  ∃ s, rtc step (after_sync (pre_install slash_join linux_world)) s ∧ quiescent s ∧
       console s
       = [PStr "Installing deps [cargo].";
          PStr (install_banner (version linux_world))]
         ++ install_done quiet_exit
         ++ bootstrap_done (ChildResult (Some (ExecError 6 "curl")) "" "").
Proof.
  split; [exact fresh_home|]. split; [exact fresh_home_no_toolchain|].
  exact (proj1 (pre_install_both_orders slash_join linux_world "/home/dev"
                  (ChildResult (Some (ExecError 6 "curl")) "" "") quiet_exit
                  fresh_home fresh_home_no_toolchain)).
Defined.

(** X8 at a fresh home, on the run in which both children exit quietly. *)
Lemma bootstrap_silent_witness :
  home_dir (env linux_world) = Some "/home/dev" ∧
  (slash_join ["/home/dev"; ".cargo"] ∉ files linux_world) ∧
  ∃ s r2, rtc step (after_sync (pre_install slash_join linux_world)) s ∧
          quiescent s ∧
          (∀ r, (rustup_command, r) ∈ finished s -> res_error r = None) ∧
          console s
          = [PStr "Installing deps [cargo].";
             PStr (install_banner (version linux_world))] ++ install_done r2.
Proof.
  split; [exact fresh_home|]. split; [exact fresh_home_no_toolchain|].
  destruct (loop_finishes_quietly (after_sync (pre_install slash_join linux_world)))
    as (s & Hs & Hq & Hf).
  assert (Hok : ∀ r, (rustup_command, r) ∈ finished s -> res_error r = None).
  { intros r. rewrite Hf. intros Hin.
    apply elem_of_cons in Hin as [Hin|Hin]; [by injection Hin as ->|].
    apply elem_of_cons in Hin as [Hin|Hin]; [by injection Hin as _ ->|].
    by apply elem_of_nil in Hin. }
  destruct (bootstrap_silent slash_join linux_world "/home/dev" s
              fresh_home fresh_home_no_toolchain Hs Hq Hok) as (r2 & _ & Hc).
  exists s, r2. split; [exact Hs|]. split; [exact Hq|]. split; [exact Hok|exact Hc].
Defined.

(** The rustup child of a fresh home exits first, with an error. *)
Lemma fresh_home_bootstrap_fails (r : child_result) :
  ∃ s, rtc step (after_sync (pre_install slash_join linux_world)) s ∧
       finished s = [(rustup_command, r)].
Proof.
  rewrite (pre_install_started slash_join linux_world "/home/dev" fresh_home).
  rewrite bool_decide_eq_false_2 by exact fresh_home_no_toolchain.
  eexists. split.
  { apply rtc_once.
    exact (step_child_exit _ [] rustup_command bootstrap_done [_] [] _ r). }
  reflexivity.
Qed.

(** X9 at a fresh home, when curl is missing. *)
Lemma bootstrap_failure_reported_witness :
  home_dir (env linux_world) = Some "/home/dev" ∧
  (slash_join ["/home/dev"; ".cargo"] ∉ files linux_world) ∧
  ∃ s, rtc step (after_sync (pre_install slash_join linux_world)) s ∧
       (rustup_command, ChildResult (Some (ExecError 127 "curl")) "" "sh: curl: not found")
       ∈ finished s ∧
       ∃ before after,
         console s
         = [PStr "Installing deps [cargo].";
            PStr (install_banner (version linux_world))]
           ++ before
           ++ [PStr "curl failed! Curl may not be installed on the OS. View https://curl.se/download.html to install.";
               PErr (ExecError 127 "curl")]
           ++ after.
Proof.
  split; [exact fresh_home|]. split; [exact fresh_home_no_toolchain|].
  destruct (fresh_home_bootstrap_fails
              (ChildResult (Some (ExecError 127 "curl")) "" "sh: curl: not found"))
    as (s & Hs & Hf).
  assert (Hin : (rustup_command,
                 ChildResult (Some (ExecError 127 "curl")) "" "sh: curl: not found")
                ∈ finished s).
  { rewrite Hf. apply list_elem_of_here. }
  exists s. split; [exact Hs|]. split; [exact Hin|].
  exact (bootstrap_failure_reported slash_join linux_world "/home/dev" s _ _
           fresh_home fresh_home_no_toolchain Hs Hin eq_refl).
Defined.

Lemma fresh_home_two_deliveries :
  nsteps step 2 (after_sync (pre_install slash_join linux_world)) fresh_home_done.
Proof.
  rewrite (pre_install_started slash_join linux_world "/home/dev" fresh_home).
  rewrite bool_decide_eq_false_2 by exact fresh_home_no_toolchain.
  eapply nsteps_l.
  { exact (step_child_exit _ [] rustup_command bootstrap_done [_] [] _ quiet_exit). }
  eapply nsteps_l; [|apply nsteps_O].
  exact (step_child_exit _ [] (install_command (version linux_world)) install_done
           [] _ _ quiet_exit).
Qed.

(** X10 at a fresh home, on the run in which both children exit: two
    deliveries, after which no child is running. *)
Lemma scripts_finish_witness :
  nsteps step 2 (after_sync (pre_install slash_join linux_world)) fresh_home_done ∧
  2 + length (pending fresh_home_done)
  = length (commands (trace (pre_install slash_join linux_world))) ∧
  2 ≤ 2 ∧
  launched fresh_home_done = commands (trace (pre_install slash_join linux_world)).
Proof.
  split; [exact fresh_home_two_deliveries|].
  destruct (proj1 (scripts_finish slash_join linux_world 2 fresh_home_done)
              fresh_home_two_deliveries) as (Hcount & Hle & Hl & _).
  split; [exact Hcount|]. split; [exact Hle|exact Hl].
Defined.

(** X1 at an environment that names no home. *)
Lemma pre_install_exception_witness :
  (∃ e, outcome (pre_install slash_join bare_world) = inl e) ∧
  trace (pre_install slash_join bare_world) = [].
Proof.
  assert (H : ∃ e, outcome (pre_install slash_join bare_world) = inl e).
  { by eexists. }
  split; [exact H|].
  exact (proj1 (proj2 (proj2 (pre_install_exception slash_join bare_world)) H)).
Defined.

(** X2 at the same environment. *)
Lemma uninstall_exception_witness :
  (∃ e, outcome (uninstall slash_join bare_world) = inl e) ∧
  trace (uninstall slash_join bare_world) = [].
Proof.
  assert (H : ∃ e, outcome (uninstall slash_join bare_world) = inl e).
  { by eexists. }
  split; [exact H|].
  exact (proj1 (proj2 (proj2 (uninstall_exception slash_join bare_world)) H)).
Defined.

(** X3 at a Windows-like environment whose toolchain directory exists. *)
Lemma bootstrap_gate_witness :
  falsy (env windows_world !! "HOME") ∧
  env windows_world !! "USERPROFILE" = Some "C:/Users/dev" ∧
  "C:/Users/dev/.cargo" ∈ files windows_world ∧
  commands (trace (pre_install slash_join windows_world))
  = ["cargo install donder-release --vers 1.0.0"].
Proof.
  assert (H1 : falsy (env windows_world !! "HOME")) by (by left).
  assert (H2 : env windows_world !! "USERPROFILE" = Some "C:/Users/dev")
    by reflexivity.
  assert (H3 : "C:/Users/dev/.cargo" ∈ files windows_world)
    by (vm_compute; reflexivity).
  split; [exact H1|]. split; [exact H2|]. split; [exact H3|].
  assert (Hne : "C:/Users/dev" ≠ "") by discriminate.
  destruct (bootstrap_gate slash_join windows_world "C:/Users/dev"
              (or_intror (or_introl (conj H1 (conj H2 Hne))))) as [Hyes _].
  exact (f_equal commands (Hyes H3)).
Defined.

End ShimRuns.
